(** * Smart Fence Guardian 2.0: a shallow embedding of
    [Smartfenceguardian2.0.py] and the properties of its spec.

    Signal samples are modelled as real numbers (ideal arithmetic for
    numpy's float64).  Every random draw of a refresh is an explicit input:
    - [randn i]        the i-th value of [np.random.randn(len(t))];
    - [rand_u]         the single [np.random.rand()] of the pulse;
    - [Draws]          the draws of [detect_event] (two [random.choice]
                       indices, one [random.random()] for [random.uniform],
                       and the wall clock read by [time.strftime]). *)

From Stdlib Require Import String Ascii Reals Lra Lia QArith Qround Qpower List.
From Stdlib Require Import Sorted Permutation.
From Stdlib Require Lqa.
Import ListNotations.

Open Scope R_scope.

(** ** Configuration and simulation helpers (lines 16-35) *)

Definition feeders : list string := ["Feeder-1"; "Feeder-2"; "Feeder-3"]%string.
Definition substations : list string := ["Substation-A"; "Substation-B"]%string.

(** [fs = 20000] *)
Definition fs : nat := 20000.

(** [np.linspace(start, stop, num)]: [num] points, step
    [(stop - start) / (num - 1)], the last point being [stop]. *)
Definition linspace (start stop : R) (num : nat) : list R :=
  map (fun i => if Nat.eqb (S i) num then stop
                else start + INR i * ((stop - start) / INR (num - 1)))
      (seq 0 num).

(** [t = np.linspace(0, 0.04, fs)] *)
Definition t : list R := linspace 0 0.04 fs.

(** Element-wise array addition ([a + b] on equal-length numpy arrays). *)
Definition vadd (a b : list R) : list R := map (fun '(x, y) => x + y) (combine a b).

(** [arr[lo:hi] = v] for a scalar [v] (slice bounds clipped to the array). *)
Definition set_slice (lo hi : nat) (v : R) (a : list R) : list R :=
  map (fun '(i, x) => if andb (Nat.leb lo i) (Nat.ltb i hi) then v else x)
      (combine (seq 0 (length a)) a).

Definition simulate_signal (randn : nat -> R) (rand_u : R) (unauth : bool) : list R :=
  let base := map (fun ti => sin (2 * PI * 50 * ti)) t in
  let noise := map (fun i => 0.02 * randn i) (seq 0 (length t)) in
  if unauth then
    let pulse := set_slice 500 800 (8 + rand_u * 2) (repeat 0 (length t)) in
    vadd (vadd base noise) pulse
  else vadd base noise.

(** [np.max]: raises [ValueError] on an empty array ([None] here). *)
Fixpoint max_from (m : R) (l : list R) : R :=
  match l with
  | [] => m
  | x :: r => max_from (Rmax m x) r
  end.

Definition np_max (l : list R) : option R :=
  match l with
  | [] => None
  | x :: r => Some (max_from x r)
  end.

(** ** Strings produced by the detector *)

Open Scope string_scope.

Definition digit (n : nat) : ascii := ascii_of_nat (48 + n mod 10).

Fixpoint digits_aux (fuel n : nat) (acc : string) : string :=
  match fuel with
  | O => acc
  | S f =>
      let acc' := String (digit n) acc in
      if Nat.ltb n 10 then acc' else digits_aux f (n / 10) acc'
  end.

(** [str(n)] for a natural number. *)
Definition string_of_nat (n : nat) : string := digits_aux (S n) n "".

(** [repr] of the float [round(x, 2)] whose value is [k / 100]: Python prints
    the shortest decimal that reads back as the same float, so the fraction
    keeps one digit when the hundredths digit is zero ([1.5], [2.0]) and two
    digits otherwise ([1.05], [2.37]). *)
Definition repr_hundredths_nat (k : nat) : string :=
  let f := k mod 100 in
  string_of_nat (k / 100) ++ "." ++
  (if Nat.eqb (f mod 10) 0 then String (digit (f / 10)) ""
   else String (digit (f / 10)) (String (digit f) "")).

Definition repr_hundredths (k : Z) : string :=
  if Z.ltb k 0 then "-" ++ repr_hundredths_nat (Z.abs_nat k)
  else repr_hundredths_nat (Z.to_nat k).

(** Rounding a rational to the nearest integer, half to even. *)
Definition round_half_even (y : Q) : Z :=
  let f := Qfloor y in
  let d := (y - inject_Z f)%Q in
  if Qeq_bool d (1 # 2) then (if Z.even f then f else f + 1)%Z
  else if Qle_bool (1 # 2) d then (f + 1)%Z
  else f.

(** The exponent [e] of a positive rational, [2^e <= x < 2^(e+1)], from the
    bit lengths of its numerator and denominator. *)
Definition binade (x : Q) : Z :=
  let e0 := (Z.log2 (Qnum x) - Z.log2 (Zpos (Qden x)))%Z in
  if Qle_bool (2 ^ e0) x then e0 else (e0 - 1)%Z.

(** IEEE double rounding (to nearest, ties to even) of a non-negative
    rational in the normal range: 53 significant bits. *)
Definition fl_pos (x : Q) : Q :=
  if Qle_bool x 0 then 0
  else let u := (2 ^ (binade x - 52))%Q in (inject_Z (round_half_even (x / u)) * u)%Q.

(** [random.random()]: [(a * 67108864 + b) / 9007199254740992], the
    integer [k = a * 2^26 + b] of 53 random bits over [2^53]. *)
Definition py_random (k : Z) : Q := k # 9007199254740992.

(** [random.uniform(a, b) = a + (b - a) * random.random()], each float
    operation rounded (here with non-negative operands and [a <= b]). *)
Definition py_uniform (a b u : Q) : Q := fl_pos (a + fl_pos (fl_pos (b - a) * u)).

(** [round(x, 2)], as the integer number of hundredths; Python rounds the
    exact value of the double half to even. *)
Definition py_round2 (x : Q) : Z := round_half_even (x * 100).

Record Clock := { hour : nat; minute : nat; second : nat }.

Definition two_digits (n : nat) : string :=
  String (digit (n / 10)) (String (digit n) "").

(** [time.strftime("%H:%M:%S")] *)
Definition strftime_HMS (c : Clock) : string :=
  two_digits (hour c) ++ ":" ++ two_digits (minute c) ++ ":" ++ two_digits (second c).

(** [random.choice(seq)]: [seq[randbelow(len(seq))]]; the draw [k] is
    reduced below the length. *)
Definition py_choice (l : list string) (k : nat) : string :=
  nth (k mod length l) l "".

(** The random draws made by one call of [detect_event]. *)
Record Draws := {
  feeder_draw : nat;
  substation_draw : nat;
  location_k : Z;          (** [random.random()] inside [random.uniform], as [py_random] *)
  clock : Clock
}.

(** The event dictionary, with its keys in insertion order. *)
Record Event := {
  ev_time : string;
  ev_substation : string;
  ev_feeder : string;
  ev_location : string;
  ev_status : string
}.

(** [location_km = round(random.uniform(0.5, 2.5), 2)] in hundredths. *)
Definition location_hundredths (d : Draws) : Z :=
  py_round2 (py_uniform (1 # 2) (5 # 2) (py_random (location_k d))).

Definition detect_event (d : Draws) (signal : list R) : option (option Event) :=
  match np_max signal with
  | None => None
  | Some m =>
      if Rgt_dec m 3.0 then
        let feeder := py_choice feeders (feeder_draw d) in
        let substation := py_choice substations (substation_draw d) in
        let location_km := location_hundredths d in
        Some (Some {| ev_time := strftime_HMS (clock d);
                      ev_substation := substation;
                      ev_feeder := feeder;
                      ev_location := repr_hundredths location_km ++ " km";
                      ev_status := "Unauthorized Fence" |})
      else Some None
  end.

(** ** Rolling RMS (lines 113-116) *)

Definition sum_R (l : list R) : R := fold_right Rplus 0 l.

(** [np.convolve(a, v, mode="valid")]: numpy swaps the arguments when [v]
    is the longer one; output [k] is [sum_j a[k + m - 1 - j] * v[j]]. *)
Definition convolve_valid_aux (a v : list R) : list R :=
  let n := length a in
  let m := length v in
  map (fun k => sum_R (map (fun j => nth (k + m - 1 - j) a 0 * nth j v 0) (seq 0 m)))
      (seq 0 (n - m + 1)).

Definition np_convolve_valid (a v : list R) : list R :=
  if Nat.ltb (length a) (length v) then convolve_valid_aux v a
  else convolve_valid_aux a v.

Definition window : nat := 500.

(** [rms_vals = np.sqrt(np.convolve(signal**2, np.ones(window)/window, mode="valid"))] *)
Definition rms_vals (signal : list R) : list R :=
  map sqrt (np_convolve_valid (map (fun x => x ^ 2) signal)
                              (repeat (1 / INR window) window)).

(** ** One refresh of the script and the session's event log *)

(** Inputs of one run of the script: the checkbox and every random draw. *)
Record Refresh := {
  unauth : bool;
  randn : nat -> R;
  rand_u : R;
  draws : Draws
}.

Definition refresh_signal (r : Refresh) : list R :=
  simulate_signal (randn r) (rand_u r) (unauth r).

(** [if event: ... st.session_state["events"].insert(0, event)]; an event
    dictionary is never empty, hence always truthy. *)
Definition log_step (events : list Event) (event : option Event) : list Event :=
  match event with
  | Some e => e :: events
  | None => events
  end.

(** A run of the script: [None] when it raises. *)
Definition refresh (events : list Event) (r : Refresh) : option (list Event) :=
  match detect_event (draws r) (refresh_signal r) with
  | None => None
  | Some event => Some (log_step events event)
  end.

(** Successive refreshes of one session, oldest first. *)
Fixpoint run_session (events : list Event) (rs : list Refresh) : option (list Event) :=
  match rs with
  | [] => Some events
  | r :: rs' =>
      match refresh events r with
      | None => None
      | Some events' => run_session events' rs'
      end
  end.

(** [st.session_state["events"] = []] when the session starts. *)
Definition session_log (rs : list Refresh) : option (list Event) := run_session [] rs.

(** The events detected during [rs], oldest first. *)
Fixpoint detections (rs : list Refresh) : list Event :=
  match rs with
  | [] => []
  | r :: rs' =>
      match detect_event (draws r) (refresh_signal r) with
      | Some (Some e) => e :: detections rs'
      | _ => detections rs'
      end
  end.

(** ** CSV export (lines 148-161) *)

Definition dq : ascii := ascii_of_nat 34.
Definition comma : ascii := ascii_of_nat 44.
Definition lf : ascii := ascii_of_nat 10.
Definition cr : ascii := ascii_of_nat 13.

(** Columns of [pd.DataFrame(events)]: the keys of the event dictionaries in
    insertion order. *)
Definition csv_columns : list string := ["time"; "substation"; "feeder"; "location"; "status"].

Definition event_row (e : Event) : list string :=
  [ev_time e; ev_substation e; ev_feeder e; ev_location e; ev_status e].

Definition special_char (c : ascii) : bool :=
  Ascii.eqb c comma || Ascii.eqb c dq || Ascii.eqb c lf || Ascii.eqb c cr.

Fixpoint plain_chars (s : string) : bool :=
  match s with
  | EmptyString => true
  | String c s' => negb (special_char c) && plain_chars s'
  end.

Fixpoint double_quotes (s : string) : string :=
  match s with
  | EmptyString => EmptyString
  | String c s' =>
      if Ascii.eqb c dq then String dq (String dq (double_quotes s'))
      else String c (double_quotes s')
  end.

(** [csv.QUOTE_MINIMAL]: a field is quoted only when it holds the delimiter,
    the quote character or a line break. *)
Definition csv_field (s : string) : string :=
  if plain_chars s then s else String dq (double_quotes s ++ String dq "").

(** One record, terminated by [os.linesep] (a line feed on POSIX). *)
Definition csv_line (fields : list string) : string :=
  String.concat (String comma "") (map csv_field fields) ++ String lf "".

(** [df_events.to_csv(index=False)] *)
Definition to_csv (events : list Event) : string :=
  csv_line csv_columns ++ String.concat "" (map (fun e => csv_line (event_row e)) events).

(** [str.encode('utf-8')] on the model's characters (code points 0-255). *)
Definition byte_of (n : nat) : Byte.byte :=
  match Byte.of_nat n with Some b => b | None => Byte.x00 end.

Definition utf8_char (a : ascii) : list Byte.byte :=
  let c := nat_of_ascii a in
  if Nat.ltb c 128 then [byte_of c] else [byte_of (192 + c / 64); byte_of (128 + c mod 64)].

Fixpoint utf8_encode (s : string) : list Byte.byte :=
  match s with
  | EmptyString => []
  | String a s' => utf8_char a ++ utf8_encode s'
  end.

(** UTF-8 decoding, for the code points 0-255 of the model ([None] for
    anything else or for malformed input). *)
Fixpoint utf8_decode (bs : list Byte.byte) : option string :=
  match bs with
  | [] => Some EmptyString
  | b :: rest =>
      let c := Byte.to_nat b in
      if Nat.ltb c 128 then
        match utf8_decode rest with
        | Some s => Some (String (ascii_of_nat c) s)
        | None => None
        end
      else if Nat.eqb c 194 || Nat.eqb c 195 then
        match rest with
        | b2 :: rest' =>
            let c2 := Byte.to_nat b2 in
            if Nat.leb 128 c2 && Nat.ltb c2 192 then
              match utf8_decode rest' with
              | Some s => Some (String (ascii_of_nat ((c - 192) * 64 + (c2 - 128))) s)
              | None => None
              end
            else None
        | [] => None
        end
      else None
  end.

(** [csv = df_events.to_csv(index=False).encode('utf-8')], offered for
    download only when the log is not empty. *)
Definition export_csv (events : list Event) : option (list Byte.byte) :=
  if Nat.ltb 0 (length events) then Some (utf8_encode (to_csv events)) else None.

(** Reading back with [pd.read_csv]: the reader of the [csv] module
    (a quote opens a quoted field only at the start of a field, a doubled
    quote inside it stands for one quote, blank lines are skipped), then the
    first record as the header.  Cells are kept as the strings read: none of
    the event fields looks like a number, a date column or an NA marker. *)
Inductive pstate := FieldStart | Unquoted | InQuoted | QuoteInQuoted.

Definition end_field (fld : list ascii) (row : list string) : list string :=
  string_of_list_ascii (rev fld) :: row.

Fixpoint csv_parse_aux (s : string) (st : pstate) (fld : list ascii)
    (row : list string) (rows : list (list string)) : option (list (list string)) :=
  match s with
  | EmptyString =>
      match st with
      | InQuoted => None
      | FieldStart =>
          match row with
          | [] => Some (rev rows)
          | _ => Some (rev (rev (end_field fld row) :: rows))
          end
      | _ => Some (rev (rev (end_field fld row) :: rows))
      end
  | String c s' =>
      match st with
      | InQuoted =>
          if Ascii.eqb c dq then csv_parse_aux s' QuoteInQuoted fld row rows
          else csv_parse_aux s' InQuoted (c :: fld) row rows
      | _ =>
          if Ascii.eqb c comma then csv_parse_aux s' FieldStart [] (end_field fld row) rows
          else if Ascii.eqb c lf then
            match st, row with
            | FieldStart, [] => csv_parse_aux s' FieldStart [] [] rows
            | _, _ => csv_parse_aux s' FieldStart [] [] (rev (end_field fld row) :: rows)
            end
          else if Ascii.eqb c dq then
            match st with
            | FieldStart => csv_parse_aux s' InQuoted fld row rows
            | QuoteInQuoted => csv_parse_aux s' InQuoted (c :: fld) row rows
            | _ => csv_parse_aux s' Unquoted (c :: fld) row rows
            end
          else csv_parse_aux s' Unquoted (c :: fld) row rows
      end
  end.

Definition csv_parse (s : string) : option (list (list string)) :=
  csv_parse_aux s FieldStart [] [] [].

(** A parsed table: its column names and its rows. *)
Definition read_csv (bs : list Byte.byte) : option (list string * list (list string)) :=
  match utf8_decode bs with
  | None => None
  | Some s =>
      match csv_parse s with
      | Some (header :: rows) =>
          if forallb (fun r => Nat.eqb (length r) (length header)) rows
          then Some (header, rows) else None
      | _ => None
      end
  end.

(** The event built from the draws [d0] below. *)
Definition ev0 : Event :=
  {| ev_time := "09:05:42"; ev_substation := "Substation-A"; ev_feeder := "Feeder-2";
     ev_location := "1.5 km"; ev_status := "Unauthorized Fence" |}.
(** Readings of a location string, following the spec's words
    ["<two-decimal-number> km"]. *)
Definition is_digit (c : ascii) : bool :=
  Nat.leb 48 (nat_of_ascii c) && Nat.leb (nat_of_ascii c) 57.

Definition digit_val (c : ascii) : Z := Z.of_nat (nat_of_ascii c - 48).

Definition km_suffix (l : list ascii) : bool :=
  match l with
  | [c1; c2; c3] => Ascii.eqb c1 " " && Ascii.eqb c2 "k" && Ascii.eqb c3 "m"
  | _ => false
  end.

(** Digits, a point, exactly two digits, then [" km"]. *)
Fixpoint two_decimal_km_aux (l : list ascii) (seen : bool) : bool :=
  match l with
  | [] => false
  | c :: r =>
      if is_digit c then two_decimal_km_aux r true
      else if Ascii.eqb c "." then
        match r with
        | a :: b :: rest => seen && is_digit a && is_digit b && km_suffix rest
        | _ => false
        end
      else false
  end.

Definition two_decimal_km (s : string) : bool := two_decimal_km_aux (list_ascii_of_string s) false.

(** The value of ["<digits>.<one or two digits> km"]. *)
Fixpoint km_value_aux (l : list ascii) (acc : Z) (seen : bool) : option Q :=
  match l with
  | [] => None
  | c :: r =>
      if is_digit c then km_value_aux r (acc * 10 + digit_val c)%Z true
      else if Ascii.eqb c "." && seen then
        match r with
        | a :: rest =>
            if is_digit a && km_suffix rest then Some (inject_Z acc + (digit_val a # 10))%Q
            else match rest with
                 | b :: rest' =>
                     if is_digit a && is_digit b && km_suffix rest'
                     then Some (inject_Z acc + ((digit_val a * 10 + digit_val b)%Z # 100))%Q
                     else None
                 | [] => None
                 end
        | [] => None
        end
      else None
  end.

Definition km_value (s : string) : option Q := km_value_aux (list_ascii_of_string s) 0 false.

(** Python's shortest form of a number of hundredths followed by [" km"]:
    digits without a leading zero (but for a lone [0]), a point, then one
    digit, or two digits the last of which is not [0]. *)
Fixpoint shortest_km_aux (l : list ascii) (seen : bool) : bool :=
  match l with
  | [] => false
  | c :: r =>
      if is_digit c then shortest_km_aux r true
      else if Ascii.eqb c "." then
        seen &&
        match r with
        | a :: rest =>
            (is_digit a && km_suffix rest) ||
            match rest with
            | b :: rest' => is_digit a && is_digit b && negb (Ascii.eqb b "0") && km_suffix rest'
            | [] => false
            end
        | [] => false
        end
      else false
  end.

Definition no_leading_zero (l : list ascii) : bool :=
  match l with
  | c1 :: c2 :: _ => negb (Ascii.eqb c1 "0") || Ascii.eqb c2 "."
  | _ => true
  end.

Definition shortest_km (s : string) : bool :=
  let l := list_ascii_of_string s in shortest_km_aux l false && no_leading_zero l.

(** ** Frequency spectrum (lines 84-94) *)

Open Scope R_scope.

(** [np.fft.fft(x)]: bin [k] is [sum_n x[n] * exp(-2 pi i k n / N)], given by
    its real and imaginary parts. *)
Definition dft_re (x : list R) (k : nat) : R :=
  let N := length x in
  sum_R (map (fun n => nth n x 0 * cos (2 * PI * INR k * INR n / INR N)) (seq 0 N)).

Definition dft_im (x : list R) (k : nat) : R :=
  let N := length x in
  sum_R (map (fun n => - (nth n x 0 * sin (2 * PI * INR k * INR n / INR N))) (seq 0 N)).

(** [np.abs(np.fft.fft(x))]: the modulus of every bin. *)
Definition np_abs_fft (x : list R) : list R :=
  map (fun k => sqrt (dft_re x k ^ 2 + dft_im x k ^ 2)) (seq 0 (length x)).

(** [fft_vals = np.abs(np.fft.fft(signal))[:fs//2]] *)
Definition fft_vals (signal : list R) : list R := firstn (fs / 2) (np_abs_fft signal).

(** [np.fft.fftfreq(n, d)]: [0, 1, ..., (n-1)//2, -(n//2), ..., -1] times
    [1 / (n * d)]. *)
Definition np_fftfreq (n : nat) (d : R) : list R :=
  map (fun i => IZR (if Nat.ltb i ((n - 1) / 2 + 1) then Z.of_nat i else (Z.of_nat i - Z.of_nat n)%Z)
                * (1 / (INR n * d)))
      (seq 0 n).

(** [freqs = np.fft.fftfreq(len(signal), 1/fs)[:fs//2]] *)
Definition fft_freqs (signal : list R) : list R :=
  firstn (fs / 2) (np_fftfreq (length signal) (1 / INR fs)).

Open Scope string_scope.

(** ** Feeder event count (lines 152-157) *)

(** [df_events["feeder"].value_counts()]: one [(value, count)] pair per
    distinct value, by decreasing count.  Values are collected in order of
    first appearance and sorted stably; the order of equal counts is
    pandas-internal, and nothing below depends on it. *)
Fixpoint count_str (k : string) (l : list string) : nat :=
  match l with
  | [] => O
  | x :: r => if String.eqb x k then S (count_str k r) else count_str k r
  end.

Fixpoint dedup_first (l : list string) : list string :=
  match l with
  | [] => []
  | x :: r => x :: filter (fun y => negb (String.eqb y x)) (dedup_first r)
  end.

Fixpoint insert_desc (p : string * nat) (l : list (string * nat)) : list (string * nat) :=
  match l with
  | [] => [p]
  | q :: r => if Nat.leb (snd q) (snd p) then p :: q :: r else q :: insert_desc p r
  end.

Fixpoint sort_desc (l : list (string * nat)) : list (string * nat) :=
  match l with
  | [] => []
  | p :: r => insert_desc p (sort_desc r)
  end.

Definition value_counts (l : list string) : list (string * nat) :=
  sort_desc (map (fun k => (k, count_str k l)) (dedup_first l)).

Definition feeder_counts (events : list Event) : list (string * nat) :=
  value_counts (map ev_feeder events).

(** Reading ["HH:MM:SS"] back into its three numbers. *)
Definition read_hms (s : string) : option (nat * nat * nat) :=
  match list_ascii_of_string s with
  | [h1; h2; c1; m1; m2; c2; s1; s2] =>
      if forallb is_digit [h1; h2; m1; m2; s1; s2] && Ascii.eqb c1 ":" && Ascii.eqb c2 ":"
      then Some (Z.to_nat (digit_val h1 * 10 + digit_val h2),
                 Z.to_nat (digit_val m1 * 10 + digit_val m2),
                 Z.to_nat (digit_val s1 * 10 + digit_val s2))
      else None
  | _ => None
  end.

(** A field written without quotes and read back as itself. *)
Definition plain_field (f : string) : bool := plain_chars f && negb (String.eqb f "").

(** An event of the log was produced by the detector. *)
Definition from_detector (e : Event) : Prop :=
  exists d s, detect_event d s = Some (Some e).

(** The three terms of sample [i] of [simulate_signal]. *)
Definition base_at (i : nat) : R := sin (2 * PI * 50 * nth i t 0).
Definition noise_at (randn : nat -> R) (i : nat) : R := 0.02 * randn i.

(** [np.random.randn] (numpy's legacy Gaussian, polar method): two uniform
    doubles [k / 2^53] give [x1 = 2 u1 - 1], [x2 = 2 u2 - 1]; the pair is
    redrawn while [r2 = x1^2 + x2^2] is [>= 1] or [0]; then
    [f = sqrt(-2 ln r2 / r2)], [f * x2] is returned and [f * x1] kept for
    the next call. *)
Definition polar_coord (k : Z) : R := 2 * (IZR k / 9007199254740992) - 1.

Definition polar_r2 (k1 k2 : Z) : R :=
  polar_coord k1 * polar_coord k1 + polar_coord k2 * polar_coord k2.

Definition legacy_gauss_pair (k1 k2 : Z) : R * R :=
  let r2 := polar_r2 k1 k2 in
  let f := sqrt (-2 * ln r2 / r2) in
  (f * polar_coord k2, f * polar_coord k1).

(** A value [np.random.randn] can return: one of the two outputs of an
    accepted pair of 53-bit draws. *)
Definition randn_value (y : R) : Prop :=
  exists k1 k2 : Z, (0 <= k1 < 9007199254740992)%Z /\ (0 <= k2 < 9007199254740992)%Z /\
    0 < polar_r2 k1 k2 < 1 /\
    (y = fst (legacy_gauss_pair k1 k2) \/ y = snd (legacy_gauss_pair k1 k2)).

(** The inputs used by witnesses and counterexamples. *)
Definition d0 : Draws :=
  {| feeder_draw := 1; substation_draw := 0; location_k := 4503599627370496;
     clock := {| hour := 9; minute := 5; second := 42 |} |}.

Definition quiet_refresh : Refresh :=
  {| unauth := false; randn := fun _ => 0; rand_u := 0; draws := d0 |}.

Definition pulse_refresh : Refresh :=
  {| unauth := true; randn := fun _ => 0; rand_u := 0; draws := d0 |}.

(** * Lemmas on the embedding *)

Open Scope list_scope.
Open Scope R_scope.

Lemma some_eq {A} (a b : A) : Some a = Some b -> a = b.
Proof. congruence. Qed.

Lemma length_linspace a b n : length (linspace a b n) = n.
Proof. unfold linspace. now rewrite length_map, length_seq. Qed.

Lemma length_t : length t = fs.
Proof. apply length_linspace. Qed.

Lemma nth_error_vadd a b i :
  nth_error (vadd a b) i =
  match nth_error a i, nth_error b i with
  | Some x, Some y => Some (x + y)
  | _, _ => None
  end.
Proof.
  revert b i; induction a as [|x a IH]; intros [|y b] [|i]; simpl; auto.
  - destruct (nth_error a i); reflexivity.
  - unfold vadd in IH |- *. simpl. apply IH.
Qed.

Lemma length_vadd a b : length (vadd a b) = Nat.min (length a) (length b).
Proof. unfold vadd. now rewrite length_map, length_combine. Qed.

Lemma nth_error_map_combine_seq (F : nat * R -> R) k a i :
  nth_error (map F (combine (seq k (length a)) a)) i =
  match nth_error a i with Some x => Some (F ((k + i)%nat, x)) | None => None end.
Proof.
  revert k i; induction a as [|x a IH]; intros k [|i]; simpl; auto.
  - now rewrite Nat.add_0_r.
  - rewrite IH. now replace (S k + i)%nat with (k + S i)%nat by lia.
Qed.

Lemma nth_error_set_slice lo hi v a i :
  nth_error (set_slice lo hi v a) i =
  match nth_error a i with
  | Some x => Some (if andb (Nat.leb lo i) (Nat.ltb i hi) then v else x)
  | None => None
  end.
Proof.
  unfold set_slice. rewrite (nth_error_map_combine_seq _ 0).
  destruct (nth_error a i); reflexivity.
Qed.

Lemma length_set_slice lo hi v a : length (set_slice lo hi v a) = length a.
Proof.
  unfold set_slice. rewrite length_map, length_combine, length_seq. lia.
Qed.

Lemma nth_error_t i : (i < fs)%nat -> nth_error t i = Some (nth i t 0).
Proof. intros H. apply nth_error_nth'. now rewrite length_t. Qed.

Lemma nth_error_base i : (i < fs)%nat ->
  nth_error (map (fun ti => sin (2 * PI * 50 * ti)) t) i = Some (base_at i).
Proof. intros H. rewrite nth_error_map, nth_error_t by exact H. reflexivity. Qed.

Lemma nth_error_noise randn i : (i < fs)%nat ->
  nth_error (map (fun i => 0.02 * randn i) (seq 0 (length t))) i = Some (noise_at randn i).
Proof.
  intros H. rewrite nth_error_map, nth_error_seq, length_t.
  destruct (Nat.ltb_spec i fs); [reflexivity | lia].
Qed.

Lemma nth_error_pulse u i : (i < fs)%nat ->
  nth_error (set_slice 500 800 (8 + u * 2) (repeat 0 (length t))) i =
  Some (if andb (Nat.leb 500 i) (Nat.ltb i 800) then 8 + u * 2 else 0).
Proof.
  intros H. rewrite nth_error_set_slice, nth_error_repeat; [reflexivity|].
  now rewrite length_t.
Qed.

(** Sample [i] of the generated signal. *)
Lemma nth_error_signal randn u unauth i : (i < fs)%nat ->
  nth_error (simulate_signal randn u unauth) i =
  Some (if unauth then
          base_at i + noise_at randn i +
          (if andb (Nat.leb 500 i) (Nat.ltb i 800) then 8 + u * 2 else 0)
        else base_at i + noise_at randn i).
Proof.
  intros H. unfold simulate_signal.
  destruct unauth; rewrite !nth_error_vadd, nth_error_base, nth_error_noise by exact H;
    [rewrite nth_error_pulse by exact H|]; reflexivity.
Qed.

Lemma length_signal randn u unauth : length (simulate_signal randn u unauth) = fs.
Proof.
  unfold simulate_signal.
  destruct unauth; rewrite ?length_vadd, ?length_set_slice, ?repeat_length, !length_map,
    ?length_seq, length_t; lia.
Qed.

Lemma In_signal randn u unauth x : In x (simulate_signal randn u unauth) ->
  exists i, (i < fs)%nat /\ nth_error (simulate_signal randn u unauth) i = Some x.
Proof.
  intros Hin. apply In_nth_error in Hin as [i Hi].
  exists i. split; [|exact Hi].
  rewrite <- (length_signal randn u unauth). apply nth_error_Some. congruence.
Qed.

Lemma base_bound i : -1 <= base_at i <= 1.
Proof. apply SIN_bound. Qed.

(** ** [np.max] *)

Lemma max_from_ge_init m l : m <= max_from m l.
Proof.
  revert m; induction l as [|x l IH]; intros m; simpl; [lra|].
  eapply Rle_trans; [apply Rmax_l | apply IH].
Qed.

Lemma max_from_ge m l x : In x l -> x <= max_from m l.
Proof.
  revert m; induction l as [|y l IH]; intros m Hin; simpl in *; [contradiction|].
  destruct Hin as [<- | Hin].
  - eapply Rle_trans; [apply Rmax_r | apply max_from_ge_init].
  - now apply IH.
Qed.

Lemma max_from_le m l c : m <= c -> (forall x, In x l -> x <= c) -> max_from m l <= c.
Proof.
  revert m; induction l as [|y l IH]; intros m Hm Hl; simpl; [exact Hm|].
  apply IH; [apply Rmax_lub; auto using in_eq | intros; apply Hl; now right].
Qed.

Lemma np_max_ge l m x : np_max l = Some m -> In x l -> x <= m.
Proof.
  destruct l as [|y l]; simpl; intros H Hin; [discriminate|].
  injection H as <-. destruct Hin as [<- | Hin].
  - apply max_from_ge_init.
  - now apply max_from_ge.
Qed.

Lemma np_max_le l m c : np_max l = Some m -> (forall x, In x l -> x <= c) -> m <= c.
Proof.
  destruct l as [|y l]; simpl; intros H Hl; [discriminate|].
  injection H as <-. apply max_from_le; [apply Hl, in_eq|].
  intros; apply Hl; now right.
Qed.

Lemma np_max_nonempty l : l <> [] -> exists m, np_max l = Some m.
Proof. destruct l; simpl; [congruence | eauto]. Qed.

Lemma signal_nonempty randn u unauth : simulate_signal randn u unauth <> [].
Proof.
  intros H. pose proof (length_signal randn u unauth) as L.
  rewrite H in L. discriminate.
Qed.

(** ** The detector *)

Lemma detect_event_cases d s m : np_max s = Some m ->
  (m > 3 -> exists e, detect_event d s = Some (Some e)) /\
  (m <= 3 -> detect_event d s = Some None).
Proof.
  intros Hm. unfold detect_event. rewrite Hm.
  split; intros H; destruct (Rgt_dec m 3.0); [eauto | lra | lra | reflexivity].
Qed.

Lemma detect_event_some_inv d s e : detect_event d s = Some (Some e) ->
  exists m, np_max s = Some m /\ m > 3.
Proof.
  unfold detect_event. destruct (np_max s) as [m|]; [|discriminate].
  destruct (Rgt_dec m 3.0); [|discriminate]. intros _. exists m. split; [reflexivity | lra].
Qed.

(** A signal all of whose samples are at most 3 raises no event. *)
Lemma detect_event_quiet d randn u unauth :
  (forall x, In x (simulate_signal randn u unauth) -> x <= 3) ->
  detect_event d (simulate_signal randn u unauth) = Some None.
Proof.
  intros Hle. destruct (np_max_nonempty _ (signal_nonempty randn u unauth)) as [m Hm].
  apply (detect_event_cases d _ m Hm). eapply np_max_le; eauto.
Qed.

(** Without the pulse, noise of magnitude at most 2 keeps every sample at
    most 3. *)
Lemma no_pulse_samples_le_3 randn u :
  (forall i, (i < fs)%nat -> Rabs (noise_at randn i) <= 2) ->
  forall x, In x (simulate_signal randn u false) -> x <= 3.
Proof.
  intros Hn x Hin. destruct (In_signal _ _ _ _ Hin) as [i [Hi Hx]].
  rewrite nth_error_signal in Hx by exact Hi. injection Hx as <-.
  pose proof (base_bound i). pose proof (Hn i Hi) as Hb. clear Hin.
  pose proof (Rle_abs (noise_at randn i)). lra.
Qed.

Lemma fs_gt_800 : (800 < fs)%nat.
Proof. apply Nat.ltb_lt. reflexivity. Qed.

Lemma nth_t i : (S i < fs)%nat -> nth i t 0 = 0 + INR i * ((0.04 - 0) / INR (fs - 1)).
Proof.
  intros H. apply nth_error_nth. unfold t, linspace.
  remember fs as n eqn:Hn. clear Hn.
  rewrite nth_error_map, nth_error_seq.
  destruct (Nat.ltb_spec i n); [|lia]. rewrite Nat.add_0_l.
  cbv beta iota delta [option_map].
  destruct (Nat.eqb_spec (S i) n); [lia | reflexivity].
Qed.

Lemma INR_fs : INR fs = 20000.
Proof. rewrite INR_IZR_INZ. reflexivity. Qed.

(** With the pulse, one draw above [-200] inside the slice lifts the maximum
    above 3. *)
Lemma pulse_max_gt_3 randn u i :
  0 <= u -> (500 <= i < 800)%nat -> randn i > -200 ->
  exists m, np_max (simulate_signal randn u true) = Some m /\ m > 3.
Proof.
  intros Hu Hi Hn.
  destruct (np_max_nonempty _ (signal_nonempty randn u true)) as [m Hm].
  exists m. split; [exact Hm|].
  assert (Hfs : (i < fs)%nat) by (pose proof fs_gt_800; lia).
  pose proof (nth_error_signal randn u true i Hfs) as Hx.
  apply nth_error_In in Hx. pose proof (np_max_ge _ _ _ Hm Hx) as Hle.
  replace (andb (Nat.leb 500 i) (Nat.ltb i 800)) with true in Hle
    by (symmetry; apply andb_true_intro; split; [apply Nat.leb_le | apply Nat.ltb_lt]; lia).
  pose proof (base_bound i). unfold noise_at in Hle. clear Hx Hm. lra.
Qed.

(** The event [detect_event] builds from the draws [d0]. *)
Lemma detect_event_d0 s m : np_max s = Some m -> m > 3 -> detect_event d0 s = Some (Some ev0).
Proof.
  intros Hm Hgt. unfold detect_event. rewrite Hm.
  destruct (Rgt_dec m 3.0); [reflexivity | lra].
Qed.

(** ** The session log *)

Lemma run_session_spec l0 rs l :
  run_session l0 rs = Some l -> l = rev (detections rs) ++ l0.
Proof.
  revert l0; induction rs as [|r rs IH]; intros l0 H; simpl in *.
  - now injection H as <-.
  - unfold refresh in H.
    destruct (detect_event (draws r) (refresh_signal r)) as [[e|]|]; [| |discriminate].
    + rewrite (IH _ H). simpl. now rewrite <- app_assoc.
    + exact (IH _ H).
Qed.

Lemma run_session_app l0 rs1 rs2 l1 :
  run_session l0 rs1 = Some l1 -> run_session l0 (rs1 ++ rs2) = run_session l1 rs2.
Proof.
  revert l0; induction rs1 as [|r rs1 IH]; intros l0 H; simpl in *.
  - now injection H as <-.
  - destruct (refresh l0 r); [now apply IH | discriminate].
Qed.

Lemma detections_from rs e : In e (detections rs) ->
  exists r, In r rs /\ detect_event (draws r) (refresh_signal r) = Some (Some e).
Proof.
  induction rs as [|r rs IH]; simpl; [contradiction|].
  destruct (detect_event (draws r) (refresh_signal r)) as [[e'|]|] eqn:Hd.
  - intros [<- | Hin]; [eauto|]. destruct (IH Hin) as [r' [? ?]]; eauto.
  - intros Hin. destruct (IH Hin) as [r' [? ?]]; eauto.
  - intros Hin. destruct (IH Hin) as [r' [? ?]]; eauto.
Qed.

Lemma nth_error_rev_0 {A} (l : list A) :
  nth_error (rev l) 0 = nth_error l (length l - 1).
Proof.
  destruct l as [|x l] using rev_ind; [reflexivity|].
  rewrite rev_app_distr, length_app. simpl.
  rewrite nth_error_app2 by lia. now replace (length l + 1 - 1 - length l)%nat with 0%nat by lia.
Qed.

(** * Claims *)

(** C1: given a sample sequence with a maximum [m], [detect_event] returns an
    Event record exactly when [m > 3.0] and nothing exactly when [m <= 3.0]. *)
Theorem detect_event_iff_threshold d s m :
  np_max s = Some m ->
  ((exists e, detect_event d s = Some (Some e)) <-> m > 3) /\
  (detect_event d s = Some None <-> m <= 3).
Proof.
  intros Hm. destruct (detect_event_cases d s m Hm) as [Hgt Hle].
  split; split.
  - intros [e He]. destruct (detect_event_some_inv _ _ _ He) as [m' [Hm' Hgt']].
    rewrite Hm in Hm'. injection Hm' as <-. exact Hgt'.
  - exact Hgt.
  - intros Hn. destruct (Rle_lt_dec m 3) as [H|H]; [exact H|].
    destruct (Hgt H) as [e He]. rewrite Hn in He. discriminate.
  - exact Hle.
Qed.

Lemma detect_event_iff_threshold_witness :
  np_max [5] = Some 5 /\
  ((exists e, detect_event d0 [5] = Some (Some e)) <-> 5 > 3) /\
  (detect_event d0 [5] = Some None <-> 5 <= 3).
Proof.
  split; [reflexivity|]. apply (detect_event_iff_threshold d0 [5] 5). reflexivity.
Defined.

(** The polar method's [r2] is a sum of squares of multiples of [2^-52]:
    once it is positive it is at least [2^-104]. *)
Lemma polar_coord_int k : polar_coord k = IZR (k - 4503599627370496) / 4503599627370496.
Proof. unfold polar_coord. rewrite minus_IZR. field. Qed.

Lemma polar_r2_lower k1 k2 : 0 < polar_r2 k1 k2 ->
  / 20282409603651670423947251286016 <= polar_r2 k1 k2.
Proof.
  unfold polar_r2. rewrite !polar_coord_int.
  set (N := ((k1 - 4503599627370496) * (k1 - 4503599627370496) +
             (k2 - 4503599627370496) * (k2 - 4503599627370496))%Z).
  assert (E : IZR (k1 - 4503599627370496) / 4503599627370496 * (IZR (k1 - 4503599627370496) / 4503599627370496) +
              IZR (k2 - 4503599627370496) / 4503599627370496 * (IZR (k2 - 4503599627370496) / 4503599627370496)
              = IZR N / 20282409603651670423947251286016)
    by (unfold N; rewrite plus_IZR, !mult_IZR; field).
  rewrite E. intros Hp.
  assert (HN : 0 < IZR N) by lra.
  apply lt_0_IZR in HN. assert (HN1 : 1 <= IZR N) by (apply IZR_le; lia). lra.
Qed.

Lemma ln2_lt_1 : ln 2 < 1.
Proof.
  rewrite <- (ln_exp 1). apply ln_increasing; [lra|].
  pose proof (exp_ineq1 1 ltac:(lra)). lra.
Qed.

(** Every value [np.random.randn] can return has magnitude at most 15
    (at most [sqrt(208 ln 2)], about 12.01). *)
Lemma randn_value_bound y : randn_value y -> Rabs y <= 15.
Proof.
  intros [k1 [k2 [_ [_ [[Hr0 Hr1] Hy]]]]].
  pose proof (polar_r2_lower k1 k2 Hr0) as Hlow.
  unfold legacy_gauss_pair in Hy. cbv zeta in Hy. cbn [fst snd] in Hy.
  set (r2 := polar_r2 k1 k2) in *.
  assert (Hln0 : ln r2 < 0) by (rewrite <- ln_1; apply ln_increasing; lra).
  assert (Hln : - (104 * ln 2) <= ln r2).
  { replace (104 * ln 2) with (ln (2 ^ 104)) by (rewrite ln_pow by lra; simpl; ring).
    rewrite <- ln_Rinv by (apply pow_lt; lra).
    replace (/ 2 ^ 104) with (/ 20282409603651670423947251286016) by (f_equal; simpl; ring).
    destruct (Rle_lt_or_eq_dec _ _ Hlow) as [Hlt | Heq].
    - left. apply ln_increasing; [apply Rinv_0_lt_compat; lra | exact Hlt].
    - rewrite Heq. lra. }
  pose proof ln2_lt_1 as Hl2.
  set (f := sqrt (-2 * ln r2 / r2)).
  assert (Hf0 : 0 <= f) by apply sqrt_pos.
  assert (Hsq : forall x, x * x <= r2 -> Rabs (f * x) <= 15).
  { intros x Hx. rewrite Rabs_mult, (Rabs_pos_eq f Hf0).
    assert (Hax : Rabs x <= sqrt r2).
    { rewrite <- sqrt_Rsqr_abs. apply sqrt_le_1_alt. unfold Rsqr. exact Hx. }
    apply Rle_trans with (f * sqrt r2); [now apply Rmult_le_compat_l|].
    unfold f. rewrite <- sqrt_mult_alt.
    2: { unfold Rdiv. apply Rmult_le_pos; [lra | left; apply Rinv_0_lt_compat; lra]. }
    replace (-2 * ln r2 / r2 * r2) with (-2 * ln r2) by (field; lra).
    rewrite <- (sqrt_square 15) by lra. apply sqrt_le_1_alt. lra. }
  unfold r2, polar_r2 in *.
  destruct Hy as [-> | ->]; apply Hsq.
  - pose proof (Rle_0_sqr (polar_coord k1)). unfold Rsqr in *. lra.
  - pose proof (Rle_0_sqr (polar_coord k2)). unfold Rsqr in *. lra.
Qed.

(** C2: with the pulse injected, for every array of values [np.random.randn]
    can return and every pulse draw [np.random.rand()] in [[0, 1)], the
    maximum of the signal exceeds 3.0 and the detector returns an Event
    record: a pulse sample is at least [8 - 1 - 0.02 * 15]. *)
Theorem pulse_detection_always d randn u :
  (forall i, randn_value (randn i)) -> 0 <= u < 1 ->
  (exists m, np_max (simulate_signal randn u true) = Some m /\ m > 3) /\
  (exists e, detect_event d (simulate_signal randn u true) = Some (Some e)).
Proof.
  intros Hr [Hu _]. pose proof (randn_value_bound _ (Hr 500%nat)) as Hb.
  assert (Hn : randn 500%nat > -200).
  { pose proof (Rle_abs (- randn 500%nat)) as Ha. rewrite Rabs_Ropp in Ha. lra. }
  destruct (pulse_max_gt_3 randn u 500 Hu ltac:(lia) Hn) as [m [Hm Hgt]].
  split; [eauto|]. exact (proj1 (detect_event_cases d _ m Hm) Hgt).
Qed.

Lemma polar_coord_half : polar_coord 6755399441055744 = 1 / 2.
Proof. unfold polar_coord. lra. Qed.

Lemma randn_value_example : randn_value (fst (legacy_gauss_pair 6755399441055744 6755399441055744)).
Proof.
  exists 6755399441055744%Z, 6755399441055744%Z.
  split; [lia|]. split; [lia|]. split; [|left; reflexivity].
  unfold polar_r2. rewrite polar_coord_half. lra.
Qed.

Lemma pulse_detection_always_witness :
  ((forall i : nat, randn_value (fst (legacy_gauss_pair 6755399441055744 6755399441055744))) /\
   0 <= 0 < 1) /\
  exists e, detect_event d0 (simulate_signal (fun _ => fst (legacy_gauss_pair 6755399441055744 6755399441055744)) 0 true) =
            Some (Some e).
Proof.
  assert (Hr : forall i : nat, randn_value (fst (legacy_gauss_pair 6755399441055744 6755399441055744)))
    by (intros; apply randn_value_example).
  assert (Hu : 0 <= 0 < 1) by lra.
  split; [split; assumption|].
  exact (proj2 (pulse_detection_always d0 (fun _ => fst (legacy_gauss_pair 6755399441055744 6755399441055744)) 0 Hr Hu)).
Defined.

(** C3: [simulate_signal] returns [fs = 20000] samples in both branches
    ([np.linspace(0, 0.04, fs)] takes [fs] as the number of points), not the
    [0.04 s * 20000 samples/s = 800] samples of the window at the sample
    rate; the points are [0.04 / 19999 s] apart, not [1 / fs]. *)
Theorem simulate_signal_length_is_fs randn u unauth :
  length (simulate_signal randn u unauth) = fs /\
  INR (length (simulate_signal randn u unauth)) <> 0.04 * INR fs /\
  nth 1 t 0 - nth 0 t 0 <> 1 / INR fs.
Proof.
  rewrite length_signal. split; [reflexivity|]. rewrite INR_fs. split; [lra|].
  rewrite !nth_t by (pose proof fs_gt_800; lia).
  replace (INR (fs - 1)) with 19999 by (rewrite INR_IZR_INZ; reflexivity).
  replace (INR 1) with 1 by reflexivity. replace (INR 0) with 0 by reflexivity.
  lra.
Qed.

(** C4: with the pulse injected, the single value [p = 8 + rand_u * 2] is added
    to base and noise at every index of the slice [500:800] (indices 500 to
    799; index 800 is outside), and nothing is added at the other indices. *)
Theorem pulse_constant_on_slice randn u :
  let p := 8 + u * 2 in
  (forall i, (500 <= i < 800)%nat ->
     nth_error (simulate_signal randn u true) i = Some (base_at i + noise_at randn i + p)) /\
  (forall i, (i < fs)%nat -> (i < 500 \/ 800 <= i)%nat ->
     nth_error (simulate_signal randn u true) i = Some (base_at i + noise_at randn i)).
Proof.
  intros p. split.
  - intros i Hi. pose proof fs_gt_800.
    rewrite nth_error_signal by lia.
    replace (andb (Nat.leb 500 i) (Nat.ltb i 800)) with true
      by (symmetry; apply andb_true_intro; split; [apply Nat.leb_le | apply Nat.ltb_lt]; lia).
    reflexivity.
  - intros i Hi Hout. rewrite nth_error_signal by exact Hi.
    replace (andb (Nat.leb 500 i) (Nat.ltb i 800)) with false.
    + now rewrite Rplus_0_r.
    + symmetry. apply andb_false_iff.
      destruct Hout; [left; apply Nat.leb_gt | right; apply Nat.ltb_ge]; lia.
Qed.

(** C5: for an input of at least 500 samples the rolling RMS has
    [length - 500 + 1] values, all non-negative. *)
Theorem rms_vals_length_nonneg s :
  (500 <= length s)%nat ->
  length (rms_vals s) = (length s - 500 + 1)%nat /\ Forall (fun x => 0 <= x) (rms_vals s).
Proof.
  intros Hs. split.
  - unfold rms_vals, np_convolve_valid, convolve_valid_aux, window.
    rewrite length_map, length_map, repeat_length.
    destruct (Nat.ltb_spec (length s) 500); [lia|]. cbv zeta.
    now rewrite length_map, length_seq.
  - apply Forall_forall. intros x Hx. unfold rms_vals in Hx.
    apply in_map_iff in Hx as [y [<- _]]. apply sqrt_pos.
Qed.

Lemma rms_vals_length_nonneg_witness :
  (500 <= length (repeat 1 500))%nat /\
  length (rms_vals (repeat 1 500)) = (length (repeat 1 500) - 500 + 1)%nat /\
  Forall (fun x => 0 <= x) (rms_vals (repeat 1 500)).
Proof.
  assert (H : (500 <= length (repeat 1 500))%nat) by (rewrite repeat_length; lia).
  split; [exact H|]. exact (rms_vals_length_nonneg (repeat 1 500) H).
Defined.

(** C9: without the pulse, when every sample of the noise array has
    magnitude at most 2, the maximum of the signal is at most 3.0 and the
    detector returns nothing. *)
Theorem no_pulse_no_detection d randn u :
  (forall i, (i < fs)%nat -> Rabs (noise_at randn i) <= 2) ->
  (exists m, np_max (simulate_signal randn u false) = Some m /\ m <= 3) /\
  detect_event d (simulate_signal randn u false) = Some None.
Proof.
  intros Hn. pose proof (no_pulse_samples_le_3 randn u Hn) as Hle.
  split.
  - destruct (np_max_nonempty _ (signal_nonempty randn u false)) as [m Hm].
    exists m. split; [exact Hm | eapply np_max_le; eauto].
  - now apply detect_event_quiet.
Qed.

Lemma zero_noise_small i : Rabs (noise_at (fun _ => 0) i) <= 2.
Proof. unfold noise_at. rewrite Rmult_0_r, Rabs_R0. lra. Qed.

Lemma no_pulse_no_detection_witness :
  (forall i, (i < fs)%nat -> Rabs (noise_at (fun _ => 0) i) <= 2) /\
  detect_event d0 (simulate_signal (fun _ => 0) 0 false) = Some None.
Proof.
  split; [intros i _; apply zero_noise_small|].
  apply (no_pulse_no_detection d0 (fun _ => 0) 0). intros i _. apply zero_noise_small.
Defined.

Lemma quiet_refresh_no_event : detect_event (draws quiet_refresh) (refresh_signal quiet_refresh) = Some None.
Proof.
  apply detect_event_quiet, no_pulse_samples_le_3. intros i _. apply zero_noise_small.
Qed.

(** C10: a refresh on which the detector returns nothing leaves the session
    event log exactly as it was. *)
Theorem refresh_without_event_keeps_log events r :
  detect_event (draws r) (refresh_signal r) = Some None -> refresh events r = Some events.
Proof. intros H. unfold refresh. now rewrite H. Qed.

Lemma refresh_without_event_keeps_log_witness :
  detect_event (draws quiet_refresh) (refresh_signal quiet_refresh) = Some None /\
  refresh [ev0] quiet_refresh = Some [ev0].
Proof.
  split; [exact quiet_refresh_no_event|].
  apply refresh_without_event_keeps_log. exact quiet_refresh_no_event.
Defined.

(** C6: the session log is the list of detected events, newest first: after
    the refreshes [rs] it has one entry per detection, its head is the most
    recent detection, every entry came from a detection whose maximum
    exceeded 3.0, and the log of any earlier point of the session is a
    suffix of it (entries are never changed or removed). *)
Theorem session_log_newest_first rs log :
  session_log rs = Some log ->
  log = rev (detections rs) /\
  length log = length (detections rs) /\
  (forall e, nth_error (detections rs) (length (detections rs) - 1) = Some e ->
             nth_error log 0 = Some e) /\
  Forall (fun e => exists r m, In r rs /\ np_max (refresh_signal r) = Some m /\ m > 3 /\
                               detect_event (draws r) (refresh_signal r) = Some (Some e)) log /\
  (forall rs1 rs2 log1, rs = rs1 ++ rs2 -> session_log rs1 = Some log1 ->
     exists newer, log = newer ++ log1).
Proof.
  unfold session_log. intros H.
  pose proof (run_session_spec _ _ _ H) as Hl. rewrite app_nil_r in Hl.
  split; [exact Hl|]. split; [now rewrite Hl, length_rev|]. split.
  { intros e He. now rewrite Hl, nth_error_rev_0. }
  split.
  - apply Forall_forall. intros e Hin. rewrite Hl in Hin. apply in_rev in Hin.
    destruct (detections_from _ _ Hin) as [r [Hr Hd]].
    destruct (detect_event_some_inv _ _ _ Hd) as [m [Hm Hgt]].
    exists r, m. auto.
  - intros rs1 rs2 log1 -> H1.
    rewrite (run_session_app _ _ rs2 _ H1) in H.
    exists (rev (detections rs2)). exact (run_session_spec _ _ _ H).
Qed.

Lemma pulse_refresh_event :
  detect_event (draws pulse_refresh) (refresh_signal pulse_refresh) = Some (Some ev0).
Proof.
  destruct (pulse_max_gt_3 (fun _ => 0) 0 500) as [m [Hm Hgt]]; [lra | lia | lra |].
  exact (detect_event_d0 _ m Hm Hgt).
Qed.

Lemma session_two_refreshes : session_log [pulse_refresh; quiet_refresh] = Some [ev0].
Proof.
  unfold session_log. cbn [run_session]. unfold refresh.
  rewrite pulse_refresh_event. cbn [log_step run_session].
  rewrite quiet_refresh_no_event. reflexivity.
Qed.

Lemma session_log_newest_first_witness :
  session_log [pulse_refresh; quiet_refresh] = Some [ev0] /\
  length [ev0] = length (detections [pulse_refresh; quiet_refresh]).
Proof.
  split; [exact session_two_refreshes|].
  exact (proj1 (proj2 (session_log_newest_first _ _ session_two_refreshes))).
Defined.

(** ** The location field *)

Lemma round_half_even_near y :
  (y - (1 # 2) <= inject_Z (round_half_even y) <= y + (1 # 2))%Q.
Proof.
  pose proof (Qfloor_le y) as Hf. pose proof (Qlt_floor y) as Hc.
  unfold round_half_even. cbv zeta. set (f := Qfloor y) in *.
  assert (H1 : inject_Z 1 = 1%Q) by reflexivity. rewrite inject_Z_plus, H1 in Hc.
  destruct (Qeq_bool (y - inject_Z f) (1 # 2)) eqn:He.
  - apply Qeq_bool_iff in He.
    destruct (Z.even f); [|rewrite inject_Z_plus, H1]; split; Lqa.lra.
  - destruct (Qle_bool (1 # 2) (y - inject_Z f)) eqn:Hl.
    + apply Qle_bool_iff in Hl. rewrite inject_Z_plus, H1. split; Lqa.lra.
    + assert (Hlt : (y - inject_Z f < 1 # 2)%Q).
      { apply Qnot_le_lt. intros Hle. apply Qle_bool_iff in Hle. congruence. }
      split; Lqa.lra.
Qed.

Lemma binade_le x : (0 < x)%Q -> (x <= 4)%Q -> (binade x <= 2)%Z.
Proof.
  destruct x as [p q]. unfold Qlt, Qle. cbn [Qnum Qden]. intros H0 H4.
  assert (Hp : (p <= Zpos q * 2 ^ 2)%Z) by lia.
  apply Z.log2_le_mono in Hp. rewrite Z.log2_mul_pow2 in Hp by lia.
  unfold binade. cbn [Qnum Qden]. destruct (Qle_bool _ _); lia.
Qed.

(** Rounding a rational of [[0, 4]] to a double moves it by at most
    [2^-51]. *)
Lemma fl_pos_near x : (0 <= x)%Q -> (x <= 4)%Q ->
  (x - (1 # 2251799813685248) <= fl_pos x <= x + (1 # 2251799813685248))%Q.
Proof.
  intros H0 H4. unfold fl_pos. destruct (Qle_bool x 0) eqn:Hz.
  - apply Qle_bool_iff in Hz. split; Lqa.lra.
  - assert (Hx : (0 < x)%Q).
    { apply Qnot_le_lt. intros Hle. apply Qle_bool_iff in Hle. congruence. }
    pose proof (binade_le x Hx H4) as He. cbv zeta.
    set (u := (2 ^ (binade x - 52))%Q).
    assert (Hu0 : (0 < u)%Q) by (apply Qpower_0_lt; Lqa.lra).
    assert (Hu1 : (u <= 1 # 1125899906842624)%Q).
    { apply Qle_trans with (2 ^ (-50))%Q.
      - apply Qpower_le_compat_l; [lia | Lqa.lra].
      - apply Qle_bool_iff. vm_compute. reflexivity. }
    assert (Hun : ~ u == 0) by (intros Hc; rewrite Hc in Hu0; apply (Qlt_irrefl 0); exact Hu0).
    pose proof (round_half_even_near (x / u)) as [Hl Hh].
    set (r := inject_Z (round_half_even (x / u))) in *.
    assert (Ht1 : ((r - x / u) * u <= (1 # 2) * u)%Q) by (apply Qmult_le_compat_r; Lqa.lra).
    assert (Ht2 : ((- (1 # 2)) * u <= (r - x / u) * u)%Q) by (apply Qmult_le_compat_r; Lqa.lra).
    assert (Heq : (r * u == (r - x / u) * u + x)%Q) by (field; exact Hun).
    rewrite Heq. set (t := ((r - x / u) * u)%Q) in *. split; Lqa.lra.
Qed.

(** [random.uniform(0.5, 2.5)] in doubles stays within [2^-49] of
    [[0.5, 2.5]]. *)
Lemma location_value_range k : (0 <= k < 9007199254740992)%Z ->
  ((1 # 2) - (1 # 562949953421312) <= py_uniform (1 # 2) (5 # 2) (py_random k) <=
   (5 # 2) + (1 # 562949953421312))%Q.
Proof.
  intros Hk. unfold py_uniform.
  assert (Ha : (2 - (1 # 2251799813685248) <= fl_pos ((5 # 2) - (1 # 2)) <= 2 + (1 # 2251799813685248))%Q).
  { pose proof (fl_pos_near ((5 # 2) - (1 # 2))) as Hn.
    specialize (Hn ltac:(Lqa.lra) ltac:(Lqa.lra)). split; Lqa.lra. }
  set (a := fl_pos ((5 # 2) - (1 # 2))) in *.
  assert (Hu : (0 <= py_random k <= 1)%Q) by (unfold py_random, Qle; cbn [Qnum Qden]; lia).
  set (v := py_random k) in *.
  assert (Hy0 : (0 <= a * v)%Q) by (apply Qmult_le_0_compat; Lqa.lra).
  assert (Hy1 : (v * a <= 1 * a)%Q) by (apply Qmult_le_compat_r; Lqa.lra).
  assert (Hy : (a * v - (1 # 2251799813685248) <= fl_pos (a * v) <= a * v + (1 # 2251799813685248))%Q)
    by (apply fl_pos_near; Lqa.lra).
  set (y := fl_pos (a * v)) in *. set (w := (a * v)%Q) in *.
  assert (Hwv : (w == v * a)%Q) by (unfold w; ring).
  assert (Hz : ((1 # 2) + y - (1 # 2251799813685248) <= fl_pos ((1 # 2) + y) <=
                (1 # 2) + y + (1 # 2251799813685248))%Q)
    by (apply fl_pos_near; Lqa.lra).
  split; Lqa.lra.
Qed.

Lemma location_hundredths_range d : (0 <= location_k d < 9007199254740992)%Z ->
  (50 <= location_hundredths d <= 250)%Z.
Proof.
  intros Hk. unfold location_hundredths, py_round2.
  pose proof (location_value_range _ Hk) as Hx.
  set (x := py_uniform (1 # 2) (5 # 2) (py_random (location_k d))) in *.
  pose proof (round_half_even_near (x * 100)) as [Hl Hh].
  set (r := round_half_even (x * 100)) in *.
  assert (H1 : (inject_Z 49 < inject_Z r)%Q) by (change (inject_Z 49) with (49 # 1); Lqa.lra).
  assert (H2 : (inject_Z r < inject_Z 251)%Q) by (change (inject_Z 251) with (251 # 1); Lqa.lra).
  rewrite <- Zlt_Qlt in H1, H2. lia.
Qed.

Lemma km_value_repr_table :
  forallb (fun k => match km_value (repr_hundredths k ++ " km") with
                    | Some v => Qeq_bool v (k # 100)
                    | None => false
                    end) (map Z.of_nat (seq 50 201)) = true.
Proof. vm_compute. reflexivity. Qed.

Lemma km_value_repr k : (50 <= k <= 250)%Z ->
  exists v, km_value (repr_hundredths k ++ " km") = Some v /\ (v == k # 100)%Q.
Proof.
  intros Hk. pose proof km_value_repr_table as T.
  rewrite forallb_forall in T.
  assert (Hin : In k (map Z.of_nat (seq 50 201))).
  { apply in_map_iff. exists (Z.to_nat k). split; [lia|]. apply in_seq. lia. }
  specialize (T k Hin).
  destruct (km_value (repr_hundredths k ++ " km")) as [v|]; [|discriminate].
  exists v. split; [reflexivity | now apply Qeq_bool_iff].
Qed.

Lemma detect_event_location d s e : detect_event d s = Some (Some e) ->
  ev_location e = (repr_hundredths (location_hundredths d) ++ " km")%string.
Proof.
  unfold detect_event. destruct (np_max s) as [m|]; [|discriminate].
  destruct (Rgt_dec m 3.0); [|discriminate]. intros H. apply some_eq, some_eq in H. now subst e.
Qed.

Lemma detect_event_5_d0 : detect_event d0 [5] = Some (Some ev0).
Proof. apply (detect_event_d0 [5] 5); [reflexivity | lra]. Qed.

(** C8 (as stated, refuted): the draw [random.random() = 0.5] gives
    [round(1.5, 2) = 1.5], printed ["1.5 km"], one fractional digit. *)
Lemma location_two_decimals_counterexample :
  detect_event d0 [5] = Some (Some ev0) /\
  ev_location ev0 = "1.5 km" /\ two_decimal_km (ev_location ev0) = false.
Proof. split; [exact detect_event_5_d0 | split; reflexivity]. Qed.

Lemma shortest_km_repr_table :
  forallb (fun k => shortest_km (repr_hundredths k ++ " km")) (map Z.of_nat (seq 50 201)) = true.
Proof. vm_compute. reflexivity. Qed.

Lemma shortest_km_repr k : (50 <= k <= 250)%Z -> shortest_km (repr_hundredths k ++ " km") = true.
Proof.
  intros Hk. pose proof shortest_km_repr_table as T.
  rewrite forallb_forall in T. apply T.
  apply in_map_iff. exists (Z.to_nat k). split; [lia|]. apply in_seq. lia.
Qed.

(** C8 (amended): the location of every event is ["<v> km"] with [v]
    written in Python's shortest form (digits, a point, one digit or two
    digits not ending in [0]); [v] is [round(random.uniform(0.5, 2.5), 2)],
    float rounding included, and lies in [[0.5, 2.5]]. *)
Theorem location_format_and_range d s e :
  (0 <= location_k d < 9007199254740992)%Z -> detect_event d s = Some (Some e) ->
  shortest_km (ev_location e) = true /\
  exists v, km_value (ev_location e) = Some v /\
            (v == location_hundredths d # 100)%Q /\ (1 # 2 <= v <= 5 # 2)%Q.
Proof.
  intros Hu He. rewrite (detect_event_location _ _ _ He).
  pose proof (location_hundredths_range d Hu) as Hk.
  revert Hk. generalize (location_hundredths d) as k. intros k Hk.
  split; [now apply shortest_km_repr|].
  destruct (km_value_repr _ Hk) as [v [Hv Heq]].
  exists v. split; [exact Hv|]. split; [exact Heq|].
  rewrite Heq. unfold Qle; cbn [Qnum Qden]. lia.
Qed.

Lemma location_format_and_range_witness :
  (0 <= location_k d0 < 9007199254740992)%Z /\ detect_event d0 [5] = Some (Some ev0) /\
  shortest_km (ev_location ev0) = true /\
  exists v, km_value (ev_location ev0) = Some v /\ (1 # 2 <= v <= 5 # 2)%Q.
Proof.
  assert (Hu : (0 <= location_k d0 < 9007199254740992)%Z) by (cbn [location_k d0]; lia).
  split; [exact Hu|]. split; [exact detect_event_5_d0|].
  destruct (location_format_and_range d0 [5] ev0 Hu detect_event_5_d0) as [Hs [v [Hv [_ Hr]]]].
  split; [exact Hs|]. exists v. split; [exact Hv | exact Hr].
Defined.

(** ** Fields of an event never need quoting *)

Open Scope string_scope.

Lemma str_append_assoc (a b c : string) : (a ++ b) ++ c = a ++ (b ++ c).
Proof. induction a as [|x a IH]; simpl; [reflexivity | now rewrite IH]. Qed.

Lemma plain_chars_app a b : plain_chars (a ++ b) = plain_chars a && plain_chars b.
Proof.
  induction a as [|x a IH]; simpl; [reflexivity|]. rewrite IH. apply andb_assoc.
Qed.

Lemma digit_not_special n : special_char (digit n) = false.
Proof.
  unfold digit. assert (H : (n mod 10 < 10)%nat) by (apply Nat.mod_upper_bound; lia).
  destruct (n mod 10) as [|[|[|[|[|[|[|[|[|[|m]]]]]]]]]]; try reflexivity; lia.
Qed.

Lemma digits_aux_plain fuel n acc :
  plain_chars acc = true -> plain_chars (digits_aux fuel n acc) = true.
Proof.
  revert n acc; induction fuel as [|fuel IH]; intros n acc Hacc; cbn [digits_aux]; [exact Hacc|].
  assert (H : plain_chars (String (digit n) acc) = true)
    by (cbn [plain_chars]; now rewrite digit_not_special, Hacc).
  destruct (Nat.ltb n 10); [exact H | now apply IH].
Qed.

Lemma string_of_nat_plain n : plain_chars (string_of_nat n) = true.
Proof. apply digits_aux_plain. reflexivity. Qed.

Lemma repr_hundredths_nat_plain k : plain_chars (repr_hundredths_nat k) = true.
Proof.
  unfold repr_hundredths_nat. rewrite plain_chars_app, string_of_nat_plain.
  destruct (Nat.eqb _ 0); cbn [plain_chars append]; rewrite !digit_not_special; reflexivity.
Qed.

Lemma repr_hundredths_plain k : plain_chars (repr_hundredths k) = true.
Proof.
  unfold repr_hundredths. destruct (Z.ltb k 0); [cbn [append plain_chars]|];
    apply repr_hundredths_nat_plain.
Qed.

Lemma strftime_HMS_plain c : plain_field (strftime_HMS c) = true.
Proof.
  unfold plain_field, strftime_HMS, two_digits. cbn [append plain_chars].
  rewrite !digit_not_special. reflexivity.
Qed.

Lemma py_choice_feeders_plain k : plain_field (py_choice feeders k) = true.
Proof.
  unfold py_choice. simpl length.
  assert (H : (k mod 3 < 3)%nat) by (apply Nat.mod_upper_bound; lia).
  destruct (k mod 3) as [|[|[|m]]]; try reflexivity; lia.
Qed.

Lemma py_choice_substations_plain k : plain_field (py_choice substations k) = true.
Proof.
  unfold py_choice. simpl length.
  assert (H : (k mod 2 < 2)%nat) by (apply Nat.mod_upper_bound; lia).
  destruct (k mod 2) as [|[|m]]; try reflexivity; lia.
Qed.

Lemma location_plain k : plain_field (repr_hundredths k ++ " km") = true.
Proof.
  unfold plain_field. rewrite plain_chars_app, repr_hundredths_plain.
  destruct (repr_hundredths k); reflexivity.
Qed.

Lemma from_detector_plain e : from_detector e -> forallb plain_field (event_row e) = true.
Proof.
  intros [d [s He]]. unfold detect_event in He.
  destruct (np_max s) as [m|]; [|discriminate].
  destruct (Rgt_dec m 3.0); [|discriminate]. apply some_eq, some_eq in He. subst e.
  cbn [event_row forallb ev_time ev_substation ev_feeder ev_location ev_status].
  rewrite strftime_HMS_plain, py_choice_substations_plain,
    py_choice_feeders_plain, location_plain. reflexivity.
Qed.

(** ** Reading back what [to_csv] wrote *)

Lemma not_special c : special_char c = false ->
  Ascii.eqb c comma = false /\ Ascii.eqb c lf = false /\ Ascii.eqb c dq = false.
Proof.
  unfold special_char. intros H.
  apply orb_false_iff in H as [H Hcr]. apply orb_false_iff in H as [H Hlf].
  apply orb_false_iff in H as [Hc Hdq]. auto.
Qed.

Lemma parse_plain_unquoted f rest fld row rows : plain_chars f = true ->
  csv_parse_aux (f ++ rest) Unquoted fld row rows =
  csv_parse_aux rest Unquoted (rev (list_ascii_of_string f) ++ fld) row rows.
Proof.
  revert fld; induction f as [|c f IH]; intros fld Hf; [reflexivity|].
  cbn [plain_chars] in Hf. apply andb_true_iff in Hf as [Hc Hf].
  apply negb_true_iff, not_special in Hc as [H1 [H2 H3]].
  cbn [append csv_parse_aux]. rewrite H1, H2, H3, IH by exact Hf.
  cbn [list_ascii_of_string rev]. now rewrite <- app_assoc.
Qed.

Lemma parse_plain_start f rest row rows : plain_field f = true ->
  csv_parse_aux (f ++ rest) FieldStart [] row rows =
  csv_parse_aux rest Unquoted (rev (list_ascii_of_string f)) row rows.
Proof.
  unfold plain_field. intros Hf. apply andb_true_iff in Hf as [Hf Hne].
  destruct f as [|c f]; [discriminate|].
  cbn [plain_chars] in Hf. apply andb_true_iff in Hf as [Hc Hf].
  apply negb_true_iff, not_special in Hc as [H1 [H2 H3]].
  cbn [append csv_parse_aux]. rewrite H1, H2, H3, parse_plain_unquoted by exact Hf.
  reflexivity.
Qed.

Lemma end_field_plain f row :
  end_field (rev (list_ascii_of_string f)) row = f :: row.
Proof. unfold end_field. now rewrite rev_involutive, string_of_list_ascii_of_string. Qed.

Lemma csv_field_plain f : plain_field f = true -> csv_field f = f.
Proof.
  unfold plain_field, csv_field. intros H. apply andb_true_iff in H as [H _]. now rewrite H.
Qed.

Lemma parse_row fs rest row rows : fs <> [] -> forallb plain_field fs = true ->
  csv_parse_aux (String.concat (String comma "") (map csv_field fs) ++ String lf rest)
    FieldStart [] row rows =
  csv_parse_aux rest FieldStart [] [] ((rev row ++ fs)%list :: rows).
Proof.
  revert row; induction fs as [|f fs IH]; intros row Hne Hp; [congruence|].
  cbn [forallb] in Hp. apply andb_true_iff in Hp as [Hf Hp].
  destruct fs as [|g fs].
  - cbn [map String.concat]. rewrite csv_field_plain, parse_plain_start by exact Hf.
    cbn [csv_parse_aux]. replace (Ascii.eqb lf comma) with false by reflexivity.
    replace (Ascii.eqb lf lf) with true by reflexivity.
    now rewrite end_field_plain.
  - change (String.concat (String comma "") (map csv_field (f :: g :: fs)))
      with (csv_field f ++ (String comma "" ++
            String.concat (String comma "") (map csv_field (g :: fs)))).
    rewrite csv_field_plain by exact Hf.
    rewrite str_append_assoc, parse_plain_start by exact Hf.
    cbn [append csv_parse_aux]. replace (Ascii.eqb comma comma) with true by reflexivity.
    rewrite end_field_plain, IH by (congruence || exact Hp).
    cbn [rev]. now rewrite <- app_assoc.
Qed.

Lemma concat_empty_cons x l : String.concat "" (x :: l) = x ++ String.concat "" l.
Proof.
  destruct l as [|y l]; [|reflexivity].
  cbn [String.concat]. induction x as [|c x IH]; [reflexivity | cbn; now rewrite <- IH].
Qed.

Lemma parse_lines log rows :
  forallb (fun e => forallb plain_field (event_row e)) log = true ->
  csv_parse_aux (String.concat "" (map (fun e => csv_line (event_row e)) log))
    FieldStart [] [] rows = Some (rev rows ++ map event_row log)%list.
Proof.
  revert rows; induction log as [|e log IH]; intros rows Hp.
  - cbn. now rewrite app_nil_r.
  - cbn [forallb] in Hp. apply andb_true_iff in Hp as [He Hp].
    cbn [map]. rewrite concat_empty_cons. unfold csv_line at 1.
    rewrite str_append_assoc. cbn [append].
    rewrite parse_row by (discriminate || exact He).
    rewrite IH by exact Hp. cbn [rev app]. now rewrite <- app_assoc.
Qed.

Lemma utf8_char_decode a rest :
  utf8_decode (utf8_char a ++ rest)%list =
  match utf8_decode rest with Some s => Some (String a s) | None => None end.
Proof. destruct a as [[] [] [] [] [] [] [] []]; reflexivity. Qed.

Lemma utf8_roundtrip s : utf8_decode (utf8_encode s) = Some s.
Proof.
  induction s as [|a s IH]; [reflexivity|].
  cbn [utf8_encode]. now rewrite utf8_char_decode, IH.
Qed.

Lemma csv_parse_to_csv log :
  forallb (fun e => forallb plain_field (event_row e)) log = true ->
  csv_parse (to_csv log) = Some (csv_columns :: map event_row log).
Proof.
  intros Hp. unfold csv_parse, to_csv, csv_line at 1.
  rewrite str_append_assoc. cbn [append].
  rewrite parse_row by (discriminate || reflexivity).
  now rewrite parse_lines by exact Hp.
Qed.

Lemma event_rows_width log :
  forallb (fun r => Nat.eqb (length r) (length csv_columns)) (map event_row log) = true.
Proof. induction log as [|e log IH]; [reflexivity | exact IH]. Qed.

(** C7: a non-empty log of detector events is exported as the UTF-8 bytes of
    the header [time,substation,feeder,location,status] followed by one
    unquoted comma-separated line per event, in log (newest-first) order;
    reading the bytes back gives the same column names and, row for row, the
    same field values in the same order. *)
Theorem export_csv_roundtrip log :
  log <> [] -> Forall from_detector log ->
  export_csv log = Some (utf8_encode (to_csv log)) /\
  to_csv log = "time,substation,feeder,location,status" ++
               String lf (String.concat "" (map (fun e => csv_line (event_row e)) log)) /\
  (forall e, In e log ->
     csv_line (event_row e) = String.concat (String comma "") (event_row e) ++ String lf "") /\
  read_csv (utf8_encode (to_csv log)) = Some (csv_columns, map event_row log).
Proof.
  intros Hne Hd.
  assert (Hp : forallb (fun e => forallb plain_field (event_row e)) log = true).
  { apply forallb_forall. intros e He. apply from_detector_plain.
    exact (proj1 (Forall_forall _ _) Hd e He). }
  split.
  { unfold export_csv. destruct log; [congruence | reflexivity]. }
  split; [reflexivity|]. split.
  - intros e He. unfold csv_line. f_equal. f_equal.
    apply forallb_forall with (x := e) in Hp; [|exact He].
    clear He. induction (event_row e) as [|f r IH]; [reflexivity|].
    cbn [forallb] in Hp. apply andb_true_iff in Hp as [Hf Hp].
    cbn [map]. rewrite csv_field_plain by exact Hf. now rewrite IH.
  - unfold read_csv. rewrite utf8_roundtrip, csv_parse_to_csv by exact Hp.
    now rewrite event_rows_width.
Qed.

Lemma export_csv_roundtrip_witness :
  [ev0] <> [] /\ Forall from_detector [ev0] /\
  read_csv (utf8_encode (to_csv [ev0])) = Some (csv_columns, [event_row ev0]).
Proof.
  assert (Hd : Forall from_detector [ev0])
    by (constructor; [exists d0, [5]; exact detect_event_5_d0 | constructor]).
  split; [discriminate|]. split; [exact Hd|].
  exact (proj2 (proj2 (proj2 (export_csv_roundtrip [ev0] ltac:(discriminate) Hd)))).
Defined.

(** * Further properties of the script *)

(** ** The detector's record *)

Lemma detect_event_some_shape d s e : detect_event d s = Some (Some e) ->
  e = {| ev_time := strftime_HMS (clock d);
         ev_substation := py_choice substations (substation_draw d);
         ev_feeder := py_choice feeders (feeder_draw d);
         ev_location := repr_hundredths (location_hundredths d) ++ " km";
         ev_status := "Unauthorized Fence" |}.
Proof.
  unfold detect_event. destruct (np_max s) as [m|]; [|discriminate].
  destruct (Rgt_dec m 3.0); [|discriminate]. intros H. apply some_eq, some_eq in H. now subst e.
Qed.

(** The record depends on the draws only: two signals that both trigger give
    the same record for the same draws. *)
Theorem detect_event_record_ignores_signal d s1 s2 e1 e2 :
  detect_event d s1 = Some (Some e1) -> detect_event d s2 = Some (Some e2) -> e1 = e2.
Proof.
  intros H1 H2. rewrite (detect_event_some_shape _ _ _ H1), (detect_event_some_shape _ _ _ H2).
  reflexivity.
Qed.

Lemma detect_event_7_d0 : detect_event d0 [7] = Some (Some ev0).
Proof. apply (detect_event_d0 [7] 7); [reflexivity | lra]. Qed.

Lemma detect_event_record_ignores_signal_witness :
  detect_event d0 [5] = Some (Some ev0) /\ detect_event d0 [7] = Some (Some ev0) /\ ev0 = ev0.
Proof.
  split; [exact detect_event_5_d0|]. split; [exact detect_event_7_d0|].
  exact (detect_event_record_ignores_signal d0 [5] [7] ev0 ev0 detect_event_5_d0 detect_event_7_d0).
Defined.

Lemma py_choice_In l k : l <> [] -> In (py_choice l k) l.
Proof.
  intros Hl. unfold py_choice. apply nth_In. apply Nat.mod_upper_bound.
  destruct l; simpl; [congruence | lia].
Qed.

(** Every record names one of the configured feeders and substations, has
    the constant status and the wall-clock time of the draws. *)
Theorem detect_event_fields d s e :
  detect_event d s = Some (Some e) ->
  In (ev_feeder e) feeders /\ In (ev_substation e) substations /\
  ev_status e = "Unauthorized Fence" /\ ev_time e = strftime_HMS (clock d).
Proof.
  intros H. rewrite (detect_event_some_shape _ _ _ H). cbn [ev_feeder ev_substation ev_status ev_time].
  split; [apply py_choice_In; discriminate|].
  split; [apply py_choice_In; discriminate|]. split; reflexivity.
Qed.

Lemma detect_event_fields_witness :
  detect_event d0 [5] = Some (Some ev0) /\ In (ev_feeder ev0) feeders.
Proof.
  split; [exact detect_event_5_d0|].
  exact (proj1 (detect_event_fields d0 [5] ev0 detect_event_5_d0)).
Defined.

(** ** The time stamp *)

Lemma digit_spec n : is_digit (digit n) = true /\ digit_val (digit n) = Z.of_nat (n mod 10).
Proof.
  unfold digit. assert (H : (n mod 10 < 10)%nat) by (apply Nat.mod_upper_bound; lia).
  destruct (n mod 10) as [|[|[|[|[|[|[|[|[|[|m]]]]]]]]]]; try (split; reflexivity); lia.
Qed.

Lemma two_digit_value n : (n < 100)%nat ->
  Z.to_nat (digit_val (digit (n / 10)) * 10 + digit_val (digit n)) = n.
Proof.
  intros H. rewrite (proj2 (digit_spec (n / 10))), (proj2 (digit_spec n)).
  rewrite (Nat.mod_small (n / 10)) by (apply Nat.Div0.div_lt_upper_bound; lia).
  pose proof (Nat.div_mod_eq n 10). lia.
Qed.

(** [time.strftime("%H:%M:%S")] writes two digits per field: the stamp has
    eight characters and reads back as the clock's hour, minute and second. *)
Theorem strftime_HMS_read_back c :
  (hour c < 100)%nat -> (minute c < 100)%nat -> (second c < 100)%nat ->
  String.length (strftime_HMS c) = 8%nat /\
  read_hms (strftime_HMS c) = Some (hour c, minute c, second c).
Proof.
  intros Hh Hm Hs. split; [reflexivity|].
  unfold read_hms, strftime_HMS, two_digits. cbn [append list_ascii_of_string].
  cbn [forallb]. rewrite !(proj1 (digit_spec _)). cbn [andb].
  replace (Ascii.eqb ":" ":") with true by reflexivity. cbn [andb].
  now rewrite !two_digit_value.
Qed.

Lemma strftime_HMS_read_back_witness :
  read_hms (strftime_HMS {| hour := 23; minute := 59; second := 7 |}) = Some (23%nat, 59%nat, 7%nat).
Proof. apply (strftime_HMS_read_back {| hour := 23; minute := 59; second := 7 |}); simpl; lia. Defined.

(** ** [round(x, 2)] *)

(** [round(x, 2)] is within half a hundredth of [x]. *)
Theorem py_round2_error x :
  (x * 100 - inject_Z (py_round2 x) <= 1 # 2)%Q /\ (inject_Z (py_round2 x) - x * 100 <= 1 # 2)%Q.
Proof.
  unfold py_round2. pose proof (round_half_even_near (x * 100)) as [Hl Hh].
  split; Lqa.lra.
Qed.


(** ** The rolling RMS *)

Lemma sum_R_app l1 l2 : sum_R (l1 ++ l2) = sum_R l1 + sum_R l2.
Proof. induction l1 as [|a l1 IH]; simpl; [ring | rewrite IH; ring]. Qed.

Lemma sum_R_mult_r (g : nat -> R) c l :
  sum_R (map (fun j => g j * c) l) = sum_R (map g l) * c.
Proof. induction l as [|a l IH]; simpl; [ring | rewrite IH; ring]. Qed.

Lemma sum_R_mult_l (g : nat -> R) c l :
  sum_R (map (fun j => c * g j) l) = c * sum_R (map g l).
Proof. induction l as [|a l IH]; simpl; [ring | rewrite IH; ring]. Qed.

Lemma sum_R_rev_index (f : nat -> R) m :
  sum_R (map (fun j => f (m - 1 - j)%nat) (seq 0 m)) = sum_R (map f (seq 0 m)).
Proof.
  induction m as [|m IH]; [reflexivity|].
  change (seq 0 (S m)) with (0%nat :: seq 1 m) at 1.
  rewrite seq_S, map_app, sum_R_app. cbn [map].
  rewrite <- seq_shift, map_map. cbn [sum_R fold_right].
  fold (sum_R (map (fun x => f (S m - 1 - S x)%nat) (seq 0 m))).
  rewrite (map_ext (fun x => f (S m - 1 - S x)%nat) (fun j => f (m - 1 - j)%nat))
    by (intros j; f_equal; lia).
  rewrite IH. replace (S m - 1 - 0)%nat with m by lia. unfold sum_R. cbn [fold_right map Nat.add]. ring.
Qed.

Lemma nth_repeat_lt (c : R) m j : (j < m)%nat -> nth j (repeat c m) 0 = c.
Proof. revert j; induction m as [|m IH]; intros [|j] Hj; simpl; try lia; auto with arith. Qed.

Lemma nth_map_sq i l : nth i (map (fun x => x ^ 2) l) 0 = nth i l 0 ^ 2.
Proof. revert i; induction l as [|a l IH]; intros [|i]; simpl; auto; ring. Qed.

Lemma sum_sq_nth l :
  sum_R (map (fun j => nth j l 0 ^ 2) (seq 0 (length l))) = sum_R (map (fun x => x ^ 2) l).
Proof.
  induction l as [|a l IH]; [reflexivity|]. cbn [length].
  change (seq 0 (S (length l))) with (0%nat :: seq 1 (length l)).
  rewrite <- seq_shift. cbn [map]. rewrite map_map. unfold sum_R in *. cbn [fold_right nth].
  rewrite IH. reflexivity.
Qed.

Lemma map_const_seq {A} (v : A) a n : map (fun _ => v) (seq a n) = repeat v n.
Proof. revert a; induction n as [|n IH]; intros a; simpl; [|rewrite IH]; reflexivity. Qed.

Lemma rms_vals_nth s k : (window <= length s)%nat -> (k <= length s - window)%nat ->
  nth_error (rms_vals s) k =
  Some (sqrt (sum_R (map (fun j => nth (k + j) s 0 ^ 2) (seq 0 window)) / INR window)).
Proof.
  intros Hs Hk. unfold rms_vals, np_convolve_valid.
  rewrite length_map, repeat_length.
  destruct (Nat.ltb_spec (length s) window); [lia|].
  unfold convolve_valid_aux. cbv zeta. rewrite ?length_map, ?repeat_length.
  rewrite nth_error_map, nth_error_map, nth_error_seq.
  destruct (Nat.ltb_spec k (length s - window + 1)); [|lia]. cbn [option_map]. do 2 f_equal.
  rewrite (map_ext_in _ (fun j => (fun i => nth (k + i) s 0 ^ 2) (window - 1 - j)%nat * (1 / INR window))).
  - rewrite sum_R_mult_r, (sum_R_rev_index (fun i => nth (k + i) s 0 ^ 2) window).
    unfold Rdiv. ring.
  - intros j Hj. apply in_seq in Hj. rewrite nth_map_sq, nth_repeat_lt by lia.
    do 3 f_equal. lia.
Qed.

(** Value [k] of the rolling RMS is the root mean square of the [window]
    samples [signal[k]], ..., [signal[k + 499]]. *)
Theorem rms_vals_window_rms s k : (window <= length s)%nat -> (k <= length s - window)%nat ->
  nth_error (rms_vals s) k =
  Some (sqrt (sum_R (map (fun j => nth (k + j) s 0 ^ 2) (seq 0 window)) / INR window)).
Proof. exact (rms_vals_nth s k). Qed.

Lemma rms_vals_window_rms_witness :
  ((window <= length (repeat 1 500))%nat /\ (0 <= length (repeat 1 500) - window)%nat) /\
  nth_error (rms_vals (repeat 1 500)) 0 =
  Some (sqrt (sum_R (map (fun j => nth (0 + j) (repeat 1 500) 0 ^ 2) (seq 0 window)) / INR window)).
Proof.
  assert (H1 : (window <= length (repeat 1 500))%nat) by (rewrite repeat_length; unfold window; lia).
  assert (H2 : (0 <= length (repeat 1 500) - window)%nat) by lia.
  split; [split; assumption|]. exact (rms_vals_window_rms (repeat 1 500) 0 H1 H2).
Defined.

(** A non-empty signal shorter than the window: numpy swaps the operands,
    and the trend is [window - length + 1] copies of the root of
    [sum(signal**2) / window]. *)
Theorem rms_vals_short s : (1 <= length s < window)%nat ->
  rms_vals s = repeat (sqrt (sum_R (map (fun x => x ^ 2) s) / INR window)) (window - length s + 1).
Proof.
  intros Hs. unfold rms_vals, np_convolve_valid.
  rewrite length_map, repeat_length.
  destruct (Nat.ltb_spec (length s) window); [|lia].
  unfold convolve_valid_aux. cbv zeta. rewrite ?length_map, ?repeat_length.
  rewrite map_map. erewrite <- (map_const_seq _ 0 (window - length s + 1)).
  apply map_ext_in. intros k Hk. apply in_seq in Hk. f_equal.
  rewrite (map_ext_in _ (fun j => 1 / INR window * nth j s 0 ^ 2)).
  - rewrite sum_R_mult_l, sum_sq_nth. unfold Rdiv. ring.
  - intros j Hj. apply in_seq in Hj. rewrite nth_map_sq, nth_repeat_lt by lia. reflexivity.
Qed.

Lemma rms_vals_short_witness :
  (1 <= length [3] < window)%nat /\
  rms_vals [3] = repeat (sqrt (sum_R (map (fun x => x ^ 2) [3]) / INR window)) (window - length [3] + 1).
Proof.
  assert (H : (1 <= length [3] < window)%nat) by (simpl; unfold window; lia).
  split; [exact H | exact (rms_vals_short [3] H)].
Defined.

(** ** Feeder counts *)

Lemma insert_desc_perm p l : Permutation (insert_desc p l) (p :: l).
Proof.
  induction l as [|q r IH]; simpl; [reflexivity|].
  destruct (Nat.leb (snd q) (snd p)); [reflexivity|].
  etransitivity; [apply perm_skip, IH | apply perm_swap].
Qed.

Lemma sort_desc_perm l : Permutation (sort_desc l) l.
Proof.
  induction l as [|p r IH]; simpl; [reflexivity|].
  etransitivity; [apply insert_desc_perm | now apply perm_skip].
Qed.

Definition count_ge (p q : string * nat) : Prop := (snd q <= snd p)%nat.

Lemma insert_desc_head q p l : HdRel count_ge q l -> count_ge q p -> HdRel count_ge q (insert_desc p l).
Proof.
  intros Hl Hp. destruct l as [|q' r]; simpl; [now constructor|].
  destruct (Nat.leb (snd q') (snd p)); constructor; [exact Hp|]. now inversion Hl.
Qed.

Lemma insert_desc_sorted p l : Sorted count_ge l -> Sorted count_ge (insert_desc p l).
Proof.
  induction l as [|q r IH]; intros H; simpl; [now repeat constructor|].
  destruct (Nat.leb_spec (snd q) (snd p)).
  - constructor; [exact H | constructor; exact H0].
  - inversion H; subst. constructor; [now apply IH|].
    apply insert_desc_head; [assumption | unfold count_ge; lia].
Qed.

Lemma sort_desc_sorted l : Sorted count_ge (sort_desc l).
Proof. induction l as [|p r IH]; simpl; [constructor | now apply insert_desc_sorted]. Qed.

Lemma In_dedup_first x l : In x (dedup_first l) <-> In x l.
Proof.
  induction l as [|y r IH]; simpl; [tauto|]. rewrite filter_In, IH. split.
  - intros [H|[H1 H2]]; [now left | now right].
  - intros [H|H]; [now left|].
    destruct (String.eqb_spec x y); [left; congruence | right; split; [exact H | reflexivity]].
Qed.

Lemma NoDup_dedup_first l : NoDup (dedup_first l).
Proof.
  induction l as [|y r IH]; simpl; constructor.
  - rewrite filter_In. rewrite String.eqb_refl. simpl. intros [_ H]; discriminate.
  - now apply NoDup_filter.
Qed.

Lemma count_str_pos k l : In k l <-> (0 < count_str k l)%nat.
Proof.
  induction l as [|y r IH]; simpl; [split; [tauto | lia]|].
  destruct (String.eqb_spec y k).
  - subst. split; [lia | now left].
  - rewrite <- IH. split; [intros [H|H]; [congruence | exact H] | now right].
Qed.

Lemma list_sum_perm l l' : Permutation l l' -> list_sum l = list_sum l'.
Proof. induction 1; simpl; lia. Qed.

Lemma list_sum_map_add {A} (f g : A -> nat) l :
  list_sum (map (fun k => f k + g k)%nat l) = (list_sum (map f l) + list_sum (map g l))%nat.
Proof. induction l as [|a l IH]; simpl; lia. Qed.

Lemma sum_indicator_absent x D : ~ In x D ->
  list_sum (map (fun k => if String.eqb x k then 1 else 0)%nat D) = 0%nat.
Proof.
  induction D as [|y D IH]; intros H; simpl; [reflexivity|].
  destruct (String.eqb_spec x y); [subst; simpl in H; tauto|]. simpl in H. rewrite IH; tauto.
Qed.

Lemma sum_indicator x D : NoDup D -> In x D ->
  list_sum (map (fun k => if String.eqb x k then 1 else 0)%nat D) = 1%nat.
Proof.
  induction D as [|y D IH]; intros Hd H; simpl; [contradiction|]. inversion Hd; subst.
  destruct (String.eqb_spec x y).
  - subst. rewrite sum_indicator_absent; auto.
  - destruct H; [congruence|]. now rewrite IH.
Qed.

Lemma sum_counts D l : NoDup D -> incl l D ->
  list_sum (map (fun k => count_str k l) D) = length l.
Proof.
  intros Hd. induction l as [|x l IH]; intros Hi; simpl.
  - clear Hd Hi. induction D; simpl; auto.
  - rewrite (map_ext _ (fun k => (if String.eqb x k then 1 else 0) + count_str k l)%nat)
      by (intros k; destruct (String.eqb x k); reflexivity).
    rewrite list_sum_map_add, sum_indicator, IH; auto.
    + intros y Hy; apply Hi; now right.
    + apply Hi; now left.
Qed.

Lemma value_counts_props l :
  NoDup (map fst (value_counts l)) /\
  (forall k n, In (k, n) (value_counts l) <-> n = count_str k l /\ (0 < n)%nat) /\
  list_sum (map snd (value_counts l)) = length l /\
  Sorted count_ge (value_counts l).
Proof.
  unfold value_counts. set (P := map (fun k => (k, count_str k l)) (dedup_first l)).
  pose proof (sort_desc_perm P) as Hp.
  split; [|split; [|split]].
  - eapply Permutation_NoDup; [apply Permutation_map; symmetry; exact Hp|].
    unfold P. rewrite map_map. simpl. rewrite map_id. apply NoDup_dedup_first.
  - intros k n. split; intros H.
    + apply (Permutation_in _ Hp) in H. unfold P in H. apply in_map_iff in H as [k' [Hk Hin]].
      injection Hk as <- <-. split; [reflexivity|]. apply count_str_pos, In_dedup_first, Hin.
    + destruct H as [-> Hn]. apply (Permutation_in _ (Permutation_sym Hp)).
      unfold P. apply in_map_iff. exists k. split; [reflexivity|].
      apply In_dedup_first, count_str_pos, Hn.
  - rewrite (list_sum_perm _ _ (Permutation_map snd Hp)). unfold P. rewrite map_map. simpl.
    apply sum_counts; [apply NoDup_dedup_first|]. intros x Hx. now apply In_dedup_first.
  - apply sort_desc_sorted.
Qed.

(** [value_counts()] lists each distinct value once, with its number of
    occurrences (never zero); the counts add up to the number of values and
    do not increase along the result. *)
Theorem value_counts_spec l :
  NoDup (map fst (value_counts l)) /\
  (forall k n, In (k, n) (value_counts l) <-> n = count_str k l /\ (0 < n)%nat) /\
  list_sum (map snd (value_counts l)) = length l /\
  Sorted (fun p q => (snd q <= snd p)%nat) (value_counts l).
Proof. exact (value_counts_props l). Qed.

Lemma session_log_feeders rs log : session_log rs = Some log ->
  forall e, In e log -> In (ev_feeder e) feeders.
Proof.
  intros H e He. apply run_session_spec in H. subst log. rewrite app_nil_r in He.
  apply in_rev in He. apply detections_from in He as [r [_ Hd]].
  rewrite (detect_event_some_shape _ _ _ Hd). apply py_choice_In. discriminate.
Qed.

(** The bar chart of a session's log has one bar per feeder that had an
    event, each one of the three configured feeders, and the bars add up to
    the number of logged events. *)
Theorem feeder_counts_session rs log : session_log rs = Some log ->
  (forall k n, In (k, n) (feeder_counts log) -> In k feeders /\ (0 < n)%nat) /\
  (length (feeder_counts log) <= 3)%nat /\
  list_sum (map snd (feeder_counts log)) = length log.
Proof.
  intros H. pose proof (session_log_feeders rs log H) as Hf.
  unfold feeder_counts. destruct (value_counts_props (map ev_feeder log)) as [Hnd [Hin [Hs _]]].
  assert (Hk : forall k n, In (k, n) (value_counts (map ev_feeder log)) -> In k feeders /\ (0 < n)%nat).
  { intros k n Hkn. apply Hin in Hkn as [Hn Hpos]. split; [|exact Hpos].
    subst n. apply count_str_pos, in_map_iff in Hpos as [e [<- He]]. now apply Hf. }
  split; [exact Hk|]. split.
  - rewrite <- (length_map fst). change 3%nat with (length feeders).
    apply NoDup_incl_length; [exact Hnd|]. intros k Hk'.
    apply in_map_iff in Hk' as [[k' n] [<- Hkn]]. exact (proj1 (Hk _ _ Hkn)).
  - now rewrite Hs, length_map.
Qed.

Lemma feeder_counts_session_witness :
  session_log [pulse_refresh; quiet_refresh] = Some [ev0] /\
  (length (feeder_counts [ev0]) <= 3)%nat.
Proof.
  split; [exact session_two_refreshes|].
  exact (proj1 (proj2 (feeder_counts_session _ _ session_two_refreshes))).
Defined.

(** The downloaded bytes decode as UTF-8 to the CSV text. *)
Theorem export_csv_decodes events b :
  export_csv events = Some b -> utf8_decode b = Some (to_csv events).
Proof.
  unfold export_csv. destruct (Nat.ltb 0 (length events)); [|discriminate].
  intros H. apply some_eq in H. subst b. apply utf8_roundtrip.
Qed.

Lemma export_csv_ev0 : export_csv [ev0] = Some (utf8_encode (to_csv [ev0])).
Proof. reflexivity. Qed.

Lemma export_csv_decodes_witness :
  export_csv [ev0] = Some (utf8_encode (to_csv [ev0])) /\
  utf8_decode (utf8_encode (to_csv [ev0])) = Some (to_csv [ev0]).
Proof. split; [exact export_csv_ev0 | exact (export_csv_decodes _ _ export_csv_ev0)]. Defined.

(** ** The spectrum plot *)

Lemma fs_half : (fs / 2 <= fs)%nat.
Proof. apply Nat.Div0.div_le_upper_bound. lia. Qed.

Lemma fs_half_bins : ((fs - 1) / 2 + 1 = fs / 2)%nat.
Proof. vm_compute. reflexivity. Qed.

Lemma length_np_fftfreq n d : length (np_fftfreq n d) = n.
Proof. unfold np_fftfreq. now rewrite length_map, length_seq. Qed.

Lemma nth_map_seq_lt (f : nat -> R) n k d : (k < n)%nat -> nth k (map f (seq 0 n)) d = f k.
Proof.
  intros Hk. rewrite nth_indep with (d' := f 0%nat) by (rewrite length_map, length_seq; lia).
  rewrite map_nth, seq_nth by lia. reflexivity.
Qed.

Lemma In_firstn_In {A} n (l : list A) x : In x (firstn n l) -> In x l.
Proof. rewrite <- (firstn_skipn n l) at 2. intros H. apply in_or_app. now left. Qed.

(** The spectrum plot pairs [fs // 2] magnitudes, all non-negative, with
    [fs // 2] frequencies; frequency [k] is [k] Hz. *)
Theorem fft_plot_axes randn u unauth :
  let signal := simulate_signal randn u unauth in
  length (fft_freqs signal) = (fs / 2)%nat /\
  (forall k, (k < fs / 2)%nat -> nth k (fft_freqs signal) 0 = INR k) /\
  length (fft_vals signal) = (fs / 2)%nat /\
  Forall (fun v => 0 <= v) (fft_vals signal).
Proof.
  cbv zeta. pose proof fs_half as Hh. split; [|split; [|split]].
  - unfold fft_freqs. rewrite length_firstn, length_np_fftfreq, length_signal. lia.
  - intros k Hk. unfold fft_freqs. rewrite nth_firstn.
    destruct (Nat.ltb_spec k (fs / 2)); [|lia].
    rewrite length_signal. unfold np_fftfreq.
    rewrite nth_map_seq_lt by lia. cbv beta. rewrite fs_half_bins.
    destruct (Nat.ltb_spec k (fs / 2)); [|lia].
    rewrite <- INR_IZR_INZ, INR_fs. field.
  - unfold fft_vals, np_abs_fft. rewrite length_firstn, length_map, length_seq, length_signal. lia.
  - apply Forall_forall. intros v Hv. apply In_firstn_In in Hv.
    unfold np_abs_fft in Hv. apply in_map_iff in Hv as [k [<- _]]. apply sqrt_pos.
Qed.
